(** * The encrypted similarity-and-decision pipeline of [demo.cpp]

    A shallow embedding of the single translation unit [src/demo.cpp]:
    the numeric helpers on [double], the calls the program issues to the
    homomorphic-encryption library, the tournament loop, the final
    decryption and the threshold decision.

    - C++ [double] is the kernel's binary64 [float]; [<], [==], [+], [*],
      [/] and [std::sqrt] are the IEEE operations of [PrimFloat].
    - The library (OpenFHE) is external.  A ciphertext handle is the term
      of library operations that produced it; every library call made by
      the program is recorded, in program order, in a log.
    - The exact (noise-free) reading of a ciphertext is a slot vector of
      rationals. *)

From Stdlib Require Import List Arith ZArith Lia Bool Floats QArith Qcanon.
From Equations Require Import Equations.
Import ListNotations.

Set Implicit Arguments.
Open Scope nat_scope.

(** ** Helper math (demo.cpp, lines 26-39) *)

Definition Vec := list float.

Section RandomVector.

(** [std::mt19937] and [std::normal_distribution] are library code: the
    generator state is an abstract [Rng] and [d] is one draw [d(rng)]. *)
Variable Rng : Type.
Variable d : Rng -> float * Rng.

(** [random_vector(dim, rng)]: [dim] successive draws, in index order. *)
Fixpoint random_vector (dim : nat) (rng : Rng) : Vec * Rng :=
  match dim with
  | O => ([], rng)
  | S dim' =>
      let (x, rng1) := d rng in
      let (v, rng2) := random_vector dim' rng1 in
      (x :: v, rng2)
  end.

End RandomVector.

(** [normalize_inplace(v)]: the returned vector is the content of [v]
    after the call.  The function is [void] and throws nothing. *)
Definition sum_squares (v : Vec) : float :=
  fold_left (fun s x => s + x * x)%float v 0%float.

Definition normalize_inplace (v : Vec) : Vec :=
  let s := sum_squares v in
  let s := PrimFloat.sqrt s in
  if (s =? 0)%float then v
  else map (fun x => x / s)%float v.

(** ** Parameters of [main] (lines 44-54) *)

Definition DB_N : nat := 100.
Definition DIM : nat := 64.
Definition BATCH_SIZE : nat := DIM.
Definition MULT_DEPTH : nat := 10.
Definition SCALE_BITS : nat := 40.
Definition SIMILARITY_THRESHOLD : float := 0.5%float.
Definition NUM_PARTIES : nat := 1.
Definition THRESHOLD_PARTIES : nat := 1.

(** ** The library interface *)

Inductive PublicKey := PubKey (id : nat).
Inductive PrivateKey := SecKey (id : nat).

(** [KeyPair<DCRTPoly>]; [good] is [kp.good()]. *)
Record KeyPair := mkKeyPair
  { good : bool; publicKey : PublicKey; secretKey : PrivateKey }.

(** [MakeCKKSPackedPlaintext(v)] packs the doubles of [v] into slots. *)
Definition Plaintext := list float.
Definition MakeCKKSPackedPlaintext (v : Vec) : Plaintext := v.

(** A ciphertext handle, as the term of the operations that built it. *)
Inductive Ciphertext :=
| CEnc (pk : PublicKey) (p : Plaintext)
| CMult (a b : Ciphertext)
| CSum (a : Ciphertext) (batch : nat)
| CAdd (a b : Ciphertext)
| CSub (a b : Ciphertext).

Inductive Feature := PKE | LEVELEDSHE | MULTIPARTY | ADVANCEDSHE.

Inductive SecurityLevel := HEStd_128_classic.

(** [const SecurityLevel security = HEStd_128_classic] (line 50). *)
Definition security : SecurityLevel := HEStd_128_classic.

(** One entry per library call.  [CallPartialDecrypt] and
    [CallCombineShares] are the library's t-of-n decryption entry points
    ([PartialDecrypt(secretShare, ciphertext)], [CombineShares(shares, quorum)]);
    [CoutRound] is the line printed at the end of every tournament round
    (line 173). *)
Inductive Call :=
| CallGenCryptoContext (multDepth scaleBits batchSize : nat)
                       (level : SecurityLevel)
| CallEnable (f : Feature)
| CallKeyGen
| CallEvalMultKeyGen (sk : PrivateKey)
| CallEvalAtIndexKeyGen (sk : PrivateKey) (indices : list Z)
| CallEncrypt (pk : PublicKey) (p : Plaintext)
| CallEvalMult (a b : Ciphertext)
| CallEvalSum (a : Ciphertext) (batch : nat)
| CallEvalAdd (a b : Ciphertext)
| CallEvalSub (a b : Ciphertext)
| CallDecrypt (sk : PrivateKey) (c : Ciphertext)
| CallPartialDecrypt (share : PrivateKey) (c : Ciphertext)
| CallCombineShares (shares quorum : nat)
| CoutRound (remaining : nat).

(** ** The logging monad *)

Definition M (A : Type) : Type := (A * list Call)%type.

Definition ret {A} (a : A) : M A := (a, []).

Definition bind {A B} (m : M A) (f : A -> M B) : M B :=
  let r := f (fst m) in (fst r, snd m ++ snd r).

Definition call (c : Call) : M unit := (tt, [c]).

Declare Scope log_scope.
Delimit Scope log_scope with log.
Notation "x <- m ;; k" := (bind m (fun x => k))
  (at level 61, m at next level, right associativity) : log_scope.
Notation "m ;;; k" := (bind m (fun _ => k))
  (at level 61, right associativity) : log_scope.
Open Scope log_scope.

Fixpoint mapM {A B} (f : A -> M B) (l : list A) : M (list B) :=
  match l with
  | [] => ret []
  | x :: l' => y <- f x ;; ys <- mapM f l' ;; ret (y :: ys)
  end.

(** The calls on the crypto context [cc] used by [main]. *)
Module cc.

Definition Enable (f : Feature) : M unit := call (CallEnable f).

Definition EvalMultKeyGen (sk : PrivateKey) : M unit :=
  call (CallEvalMultKeyGen sk).

Definition EvalAtIndexKeyGen (sk : PrivateKey) (idx : list Z) : M unit :=
  call (CallEvalAtIndexKeyGen sk idx).

Definition Encrypt (pk : PublicKey) (p : Plaintext) : M Ciphertext :=
  call (CallEncrypt pk p) ;;; ret (CEnc pk p).

Definition EvalMult (a b : Ciphertext) : M Ciphertext :=
  call (CallEvalMult a b) ;;; ret (CMult a b).

Definition EvalSum (a : Ciphertext) (batch : nat) : M Ciphertext :=
  call (CallEvalSum a batch) ;;; ret (CSum a batch).

Definition EvalAdd (a b : Ciphertext) : M Ciphertext :=
  call (CallEvalAdd a b) ;;; ret (CAdd a b).

Definition EvalSub (a b : Ciphertext) : M Ciphertext :=
  call (CallEvalSub a b) ;;; ret (CSub a b).

End cc.

(** ** Encrypted dot product of one database item (lines 126-134) *)

Definition similarity (enc_query c : Ciphertext) : M Ciphertext :=
  prod <- cc.EvalMult enc_query c ;;
  dot <- cc.EvalSum prod BATCH_SIZE ;;
  ret dot.

(** ** The tournament (lines 136-175) *)

(** The lambda [pairwise_max]: both [sum] and [diff] are computed, and
    [sum] is what line 160 returns. *)
Definition pairwise_max (A B : Ciphertext) : M Ciphertext :=
  sum <- cc.EvalAdd A B ;;
  diff <- cc.EvalSub A B ;;
  ret sum.

(** The inner [for] loop (lines 166-168): [i] and [i+1] while [i+1 < size]. *)
Fixpoint pair_up (working : list Ciphertext) : M (list Ciphertext) :=
  match working with
  | A :: B :: rest =>
      m <- pairwise_max A B ;;
      next <- pair_up rest ;;
      ret (m :: next)
  | _ => ret []
  end.

Definition no_ct : Ciphertext := CEnc (PubKey 0) [].

(** [working.back()] *)
Definition back (working : list Ciphertext) : Ciphertext := last working no_ct.

(** The elements pushed by the [if] of lines 169-171. *)
Definition pass_through (working : list Ciphertext) : list Ciphertext :=
  if length working mod 2 =? 1 then [back working] else [].

(** One iteration of the [while] body (lines 165-173). *)
Definition round (working : list Ciphertext) : M (list Ciphertext) :=
  next <- pair_up working ;;
  let next := next ++ pass_through working in
  call (CoutRound (length next)) ;;;
  ret next.

(** Lists two elements at a time, as the inner loop walks them. *)
Lemma list_ind2 (A : Type) (P : list A -> Prop) :
  P [] -> (forall a, P [a]) ->
  (forall a b l, P l -> P (a :: b :: l)) ->
  forall l, P l.
Proof.
  intros H0 H1 H2.
  fix IH 1.
  intros [|a [|b l]].
  - exact H0.
  - apply H1.
  - apply H2, IH.
Qed.

Lemma pair_up_length (working : list Ciphertext) :
  length (fst (pair_up working)) = length working / 2.
Proof.
  induction working as [|a|a b l IH] using list_ind2; try reflexivity.
  change (length (fst (pair_up (a :: b :: l))))
    with (S (length (fst (pair_up l)))).
  rewrite IH.
  change (length (a :: b :: l)) with (1 * 2 + length l).
  rewrite Nat.div_add_l by discriminate. reflexivity.
Qed.

Lemma pass_through_length (working : list Ciphertext) :
  length (pass_through working) = length working mod 2.
Proof.
  unfold pass_through.
  pose proof (Nat.mod_upper_bound (length working) 2 ltac:(discriminate)).
  destruct (Nat.eqb_spec (length working mod 2) 1) as [E|E];
    cbn [length]; lia.
Qed.

Lemma round_length (working : list Ciphertext) :
  length (fst (round working)) = length working / 2 + length working mod 2.
Proof.
  unfold round. cbn [bind fst snd call ret].
  rewrite length_app, pair_up_length, pass_through_length. reflexivity.
Qed.

Lemma round_shrinks (working : list Ciphertext) :
  1 < length working -> length (fst (round working)) < length working.
Proof.
  intros H. rewrite round_length.
  pose proof (Nat.div_mod_eq (length working) 2).
  pose proof (Nat.mod_upper_bound (length working) 2 ltac:(discriminate)).
  lia.
Qed.

(** The [while (working.size() > 1)] loop of lines 164-174.  Each iteration
    replaces [working] by the [next] of [round] and the loop goes on with
    it, i.e. [next <- round working ;; tournament next] with the bind
    written out; the recursion is on the size of [working], which every
    iteration lowers. *)
Equations? tournament (working : list Ciphertext) : M (list Ciphertext)
  by wf (length working) lt :=
  tournament working with lt_dec 1 (length working) := {
    | left _ =>
        let r := round working in
        let t := tournament (fst r) in
        (fst t, snd r ++ snd t)
    | right _ => ret working }.
Proof.
  apply round_shrinks. assumption.
Qed.

(** ** [main] (lines 42-223) *)

(** [v[i] = x] on a vector; an index past the end is not written by the
    program and leaves the model's vector as it is. *)
Fixpoint assign (v : Vec) (i : nat) (x : float) : Vec :=
  match v, i with
  | [], _ => []
  | _ :: v', O => x :: v'
  | y :: v', S i' => y :: assign v' i' x
  end.

(** The decision expression of lines 196-197, [score < SIMILARITY_THRESHOLD]. *)
Definition is_unique (score threshold : float) : bool :=
  (score <? threshold)%float.

(** The values [main] prints after decryption (lines 191-206). *)
Record Report := mkReport
  { plain_max : float;
    plain_argmax : nat;
    enc_max : float;
    is_unique_plaintext : bool;
    is_unique_encrypted : bool;
    accuracy_error : float }.

Section Main.

Variable Rng : Type.
Variable d : Rng -> float * Rng.

(** What the library hands back: the key pair of [cc->KeyGen()] and the
    plaintext [cc->Decrypt] stores through its out-parameter. *)
Variable keygen : KeyPair.
Variable decrypt : PrivateKey -> Ciphertext -> Plaintext.

Definition GenCryptoContext : M unit :=
  call (CallGenCryptoContext MULT_DEPTH SCALE_BITS BATCH_SIZE security).

Definition KeyGen : M KeyPair := call CallKeyGen ;;; ret keygen.

Definition Decrypt (sk : PrivateKey) (c : Ciphertext) : M Plaintext :=
  call (CallDecrypt sk c) ;;; ret (decrypt sk c).

(** Lines 58-62: draw and normalise the database, one vector at a time. *)
Fixpoint generate_db (n : nat) (rng : Rng) : list Vec * Rng :=
  match n with
  | O => ([], rng)
  | S n' =>
      let r := random_vector d DIM rng in
      let v := normalize_inplace (fst r) in
      let rest := generate_db n' (snd r) in
      (v :: fst rest, snd rest)
  end.

(** Lines 67-73: the plaintext baseline, in [double] arithmetic. *)
Definition plain_dot (query v : Vec) : float :=
  fold_left (fun s k => s + nth k query 0 * nth k v 0)%float (seq 0 DIM) 0%float.

Definition baseline (query : Vec) (db : list Vec) : float * nat :=
  fold_left
    (fun acc i =>
       let s := plain_dot query (nth i db []) in
       if (fst acc <? s)%float then (s, i) else acc)
    (seq 0 DB_N) ((-2)%float, 0).

Definition main (rng : Rng) : M (Z * option Report) :=
  let g := generate_db DB_N rng in
  let db := fst g in
  let q := random_vector d DIM (snd g) in
  let query := normalize_inplace (fst q) in
  let b := baseline query db in
  GenCryptoContext ;;;
  cc.Enable PKE ;;;
  cc.Enable LEVELEDSHE ;;;
  cc.Enable MULTIPARTY ;;;
  cc.Enable ADVANCEDSHE ;;;
  kp0 <- KeyGen ;;
  if negb (good kp0) then ret (1%Z, None)
  else
    let jointPublicKey := publicKey kp0 in
    cc.EvalMultKeyGen (secretKey kp0) ;;;
    cc.EvalAtIndexKeyGen (secretKey kp0) [1; 2; 4; 8; 16; 32; 64]%Z ;;;
    enc_db <- mapM (fun v => cc.Encrypt jointPublicKey
                               (MakeCKKSPackedPlaintext v)) db ;;
    enc_query <- cc.Encrypt jointPublicKey (MakeCKKSPackedPlaintext query) ;;
    enc_sims <- mapM (similarity enc_query) enc_db ;;
    working <- tournament enc_sims ;;
    let enc_maxSim := nth 0 working no_ct in
    let threshold_vec := assign (repeat 0%float DIM) 0 SIMILARITY_THRESHOLD in
    enc_threshold <- cc.Encrypt jointPublicKey
                       (MakeCKKSPackedPlaintext threshold_vec) ;;
    decrypted <- Decrypt (secretKey kp0) enc_maxSim ;;
    let enc_max := nth 0 decrypted 0%float in
    let is_unique_plaintext := is_unique (fst b) SIMILARITY_THRESHOLD in
    let is_unique_encrypted := is_unique enc_max SIMILARITY_THRESHOLD in
    let accuracy_error := PrimFloat.abs (fst b - enc_max) in
    ret (0%Z, Some (mkReport (fst b) (snd b) enc_max is_unique_plaintext
                       is_unique_encrypted accuracy_error)).

End Main.

(** ** The values of the local variables of [main] *)

Section MainValues.

Variable Rng : Type.
Variable d : Rng -> float * Rng.
Variable keygen : KeyPair.
Variable decrypt : PrivateKey -> Ciphertext -> Plaintext.
Variable rng : Rng.

(** [db], [query], [enc_db], [enc_query], [enc_sims], [enc_maxSim],
    [threshold_vec] and [enc_max] in the run that starts from [rng]. *)
Definition db_of : list Vec := fst (generate_db d DB_N rng).

Definition query_of : Vec :=
  normalize_inplace (fst (random_vector d DIM (snd (generate_db d DB_N rng)))).

Definition enc_db_of : list Ciphertext :=
  map (fun v => CEnc (publicKey keygen) (MakeCKKSPackedPlaintext v)) db_of.

Definition enc_query_of : Ciphertext :=
  CEnc (publicKey keygen) (MakeCKKSPackedPlaintext query_of).

Definition enc_sims_of : list Ciphertext :=
  map (fun c => CSum (CMult enc_query_of c) BATCH_SIZE) enc_db_of.

Definition enc_maxSim_of : Ciphertext :=
  nth 0 (fst (tournament enc_sims_of)) no_ct.

Definition threshold_vec : Vec :=
  assign (repeat 0%float DIM) 0 SIMILARITY_THRESHOLD.

Definition enc_max_of : float :=
  nth 0 (decrypt (secretKey keygen) enc_maxSim_of) 0%float.

(** [plain_max] and [plain_argmax]. *)
Definition plain_of : float * nat := baseline query_of db_of.

(** The record printed by a run that reaches the end of [main]. *)
Definition report_of : Report :=
  mkReport (fst plain_of) (snd plain_of) enc_max_of
           (is_unique (fst plain_of) SIMILARITY_THRESHOLD)
           (is_unique enc_max_of SIMILARITY_THRESHOLD)
           (PrimFloat.abs (fst plain_of - enc_max_of)).

(** Calls issued up to and including [KeyGen] (lines 81-99). *)
Definition setup_calls : list Call :=
  [ CallGenCryptoContext MULT_DEPTH SCALE_BITS BATCH_SIZE security;
    CallEnable PKE; CallEnable LEVELEDSHE; CallEnable MULTIPARTY;
    CallEnable ADVANCEDSHE; CallKeyGen ].

(** Calls issued after a successful [KeyGen] (lines 107-186). *)
Definition work_calls : list Call :=
  [ CallEvalMultKeyGen (secretKey keygen);
    CallEvalAtIndexKeyGen (secretKey keygen) [1; 2; 4; 8; 16; 32; 64]%Z ]
  ++ map (fun v => CallEncrypt (publicKey keygen) v) db_of
  ++ [ CallEncrypt (publicKey keygen) query_of ]
  ++ concat (map (fun c => [ CallEvalMult enc_query_of c;
                             CallEvalSum (CMult enc_query_of c) BATCH_SIZE ])
                 enc_db_of)
  ++ snd (tournament enc_sims_of)
  ++ [ CallEncrypt (publicKey keygen) threshold_vec;
       CallDecrypt (secretKey keygen) enc_maxSim_of ].

End MainValues.

(** ** Exact reading of ciphertexts *)

(** The rational a finite [double] denotes; infinities and NaN, which no
    packed plaintext of the program holds a meaning for, read as 0. *)
Definition F2Q (x : float) : Q :=
  match Prim2SF x with
  | S754_finite s m e =>
      ((if s then -1 else 1) * inject_Z (Zpos m) * Qpower 2 e)%Q
  | _ => 0%Q
  end.

Definition F2Qc (x : float) : Qc := Q2Qc (F2Q x).

Definition qsum (l : list Qc) : Qc := fold_right Qcplus 0%Qc l.

Section Slots.

(** Number of slots of every ciphertext of the context (its batch size). *)
Variable n : nat.

(** Slot [j] of a ciphertext in the noise-free CKKS reading: packing
    pads with zeros, [EvalMult], [EvalAdd] and [EvalSub] act slot by
    slot, and [EvalSum(c, batch)] leaves in slot [j] the sum of the
    [batch] slots that follow it cyclically. *)
Fixpoint slots (c : Ciphertext) (j : nat) : Qc :=
  match c with
  | CEnc _ p => if j <? n then F2Qc (nth j p 0%float) else 0%Qc
  | CMult a b => (slots a j * slots b j)%Qc
  | CSum a batch =>
      qsum (map (fun k => slots a ((j + k) mod n)) (seq 0 batch))
  | CAdd a b => (slots a j + slots b j)%Qc
  | CSub a b => (slots a j - slots b j)%Qc
  end.

End Slots.

(** The scalar read back by [decrypted->GetCKKSPackedValue()[0]]. *)
Definition value (c : Ciphertext) : Qc := slots BATCH_SIZE c 0.

(** The plaintext dot product of two vectors, over the rationals. *)
Definition dot_product (a b : Vec) : Qc :=
  qsum (map (fun p => (F2Qc (fst p) * F2Qc (snd p))%Qc) (combine a b)).

Definition Qcmax (a b : Qc) : Qc := if Qclt_le_dec a b then b else a.

Definition Qcabs (a : Qc) : Qc := if Qclt_le_dec a 0 then (- a)%Qc else a.

(** ** Classifying log entries *)

Definition is_encrypt (c : Call) : bool :=
  match c with CallEncrypt _ _ => true | _ => false end.

(** Any call that asks the library for a decryption, whole or partial. *)
Definition is_decrypt (c : Call) : bool :=
  match c with
  | CallDecrypt _ _ | CallPartialDecrypt _ _ | CallCombineShares _ _ => true
  | _ => false
  end.

(** The calls of share-based (t-of-n) decryption. *)
Definition is_share_call (c : Call) : bool :=
  match c with
  | CallPartialDecrypt _ _ | CallCombineShares _ _ => true
  | _ => false
  end.

Definition is_round (c : Call) : bool :=
  match c with CoutRound _ => true | _ => false end.

(** Number of tournament rounds a log records. *)
Definition rounds (log : list Call) : nat := length (filter is_round log).

(** The calls the tournament loop can issue. *)
Definition is_tournament_call (c : Call) : bool :=
  match c with
  | CallEvalAdd _ _ | CallEvalSub _ _ | CoutRound _ => true
  | _ => false
  end.

(** A ciphertext that comes straight out of [Encrypt]. *)
Definition is_fresh (c : Ciphertext) : bool :=
  match c with CEnc _ _ => true | _ => false end.

(** An [EvalSub] one of whose operands comes straight out of [Encrypt]. *)
Definition sub_on_fresh (c : Call) : bool :=
  match c with
  | CallEvalSub a b => is_fresh a || is_fresh b
  | _ => false
  end.

(** ** Sample runs *)

(** A generator that cycles through -3, -2, ..., 3. *)
Definition sample_draw (s : nat) : float * nat :=
  ((PrimFloat.of_uint63 (Uint63.of_Z (Z.of_nat (s mod 7))) - 3)%float, S s).

(** A generator that only draws 0. *)
Definition zero_draw (s : unit) : float * unit := (0%float, s).

Definition sample_keys : KeyPair := mkKeyPair true (PubKey 1) (SecKey 1).

(** An answer of the library to [Decrypt]: a plaintext holding 0.25. *)
Definition sample_decrypt (sk : PrivateKey) (c : Ciphertext) : Plaintext :=
  [0.25%float].

Definition sample_run : M (Z * option Report) :=
  main sample_draw sample_keys sample_decrypt 0.

Definition zero_run : M (Z * option Report) :=
  main zero_draw sample_keys sample_decrypt tt.

(** ** Further readings of logs, ciphertexts and doubles *)

(** [std::isnan(x)], i.e. [x != x]. *)
Definition is_nan (x : float) : bool := negb (x =? x)%float.

(** The similarity the baseline loop computes for item [i] (line 71). *)
Definition plain_sim (query : Vec) (db : list Vec) (i : nat) : float :=
  plain_dot query (nth i db []).

Definition is_eval_add (c : Call) : bool :=
  match c with CallEvalAdd _ _ => true | _ => false end.

Definition is_eval_sub (c : Call) : bool :=
  match c with CallEvalSub _ _ => true | _ => false end.

Definition is_eval_mult (c : Call) : bool :=
  match c with CallEvalMult _ _ => true | _ => false end.

Definition is_eval_sum (c : Call) : bool :=
  match c with CallEvalSum _ _ => true | _ => false end.

(** The operand pairs of the [EvalAdd], resp. [EvalSub], calls of a log. *)
Definition add_operands (log : list Call) : list (Ciphertext * Ciphertext) :=
  flat_map (fun c => match c with CallEvalAdd a b => [(a, b)] | _ => [] end) log.

Definition sub_operands (log : list Call) : list (Ciphertext * Ciphertext) :=
  flat_map (fun c => match c with CallEvalSub a b => [(a, b)] | _ => [] end) log.

(** Whether the result of some [EvalSub] is part of a ciphertext. *)
Fixpoint uses_sub (c : Ciphertext) : bool :=
  match c with
  | CEnc _ _ => false
  | CMult a b => uses_sub a || uses_sub b
  | CSum a _ => uses_sub a
  | CAdd a b => uses_sub a || uses_sub b
  | CSub _ _ => true
  end.

(** Multiplicative depth of a ciphertext: the longest chain of [EvalMult]
    below it; additions, subtractions and slot sums add no level. *)
Fixpoint mult_depth (c : Ciphertext) : nat :=
  match c with
  | CEnc _ _ => 0
  | CMult a b => S (Nat.max (mult_depth a) (mult_depth b))
  | CSum a _ => mult_depth a
  | CAdd a b => Nat.max (mult_depth a) (mult_depth b)
  | CSub a b => Nat.max (mult_depth a) (mult_depth b)
  end.

(** The secret key a call is given, if any. *)
Definition secret_key_of (c : Call) : option PrivateKey :=
  match c with
  | CallEvalMultKeyGen sk | CallEvalAtIndexKeyGen sk _
  | CallDecrypt sk _ | CallPartialDecrypt sk _ => Some sk
  | _ => None
  end.

Definition uses_secret_key (c : Call) : bool :=
  match secret_key_of c with Some _ => true | None => false end.

(** * Properties *)

(** ** The logging monad *)

Lemma mapM_fst (A B : Type) (f : A -> M B) (l : list A) :
  fst (mapM f l) = map (fun x => fst (f x)) l.
Proof.
  induction l as [|x l IH]; [reflexivity|].
  cbn [mapM bind ret fst snd map]. now rewrite IH.
Qed.

Lemma mapM_snd (A B : Type) (f : A -> M B) (l : list A) :
  snd (mapM f l) = concat (map (fun x => snd (f x)) l).
Proof.
  induction l as [|x l IH]; [reflexivity|].
  cbn [mapM bind ret fst snd map concat]. now rewrite IH, app_nil_r.
Qed.

Lemma concat_map_singleton (A B : Type) (f : A -> B) (l : list A) :
  concat (map (fun x => [f x]) l) = map f l.
Proof.
  induction l as [|x l IH]; [reflexivity|].
  cbn [map concat app]. now rewrite IH.
Qed.

(** ** One round *)

Lemma pass_through_cons2 (a b : Ciphertext) (l : list Ciphertext) :
  pass_through (a :: b :: l) = pass_through l.
Proof.
  unfold pass_through, back.
  change (length (a :: b :: l)) with (2 + length l).
  replace ((2 + length l) mod 2) with (length l mod 2)
    by (rewrite <- (Nat.Div0.mod_add (length l) 1 2); f_equal; lia).
  destruct l as [|c l]; reflexivity.
Qed.

Lemma pair_up_fst_cons2 (a b : Ciphertext) (l : list Ciphertext) :
  fst (pair_up (a :: b :: l)) = CAdd a b :: fst (pair_up l).
Proof. reflexivity. Qed.

Lemma pair_up_snd_cons2 (a b : Ciphertext) (l : list Ciphertext) :
  snd (pair_up (a :: b :: l)) =
  CallEvalAdd a b :: CallEvalSub a b :: snd (pair_up l).
Proof.
  cbn [pair_up pairwise_max cc.EvalAdd cc.EvalSub bind call ret fst snd app].
  now rewrite app_nil_r.
Qed.

Lemma round_fst (working : list Ciphertext) :
  fst (round working) = fst (pair_up working) ++ pass_through working.
Proof. reflexivity. Qed.

Lemma round_snd (working : list Ciphertext) :
  snd (round working) =
  snd (pair_up working) ++ [CoutRound (length (fst (round working)))].
Proof. reflexivity. Qed.

Lemma pair_up_no_round (working : list Ciphertext) :
  filter is_round (snd (pair_up working)) = [].
Proof.
  induction working as [|a|a b l IH] using list_ind2; try reflexivity.
  rewrite pair_up_snd_cons2. exact IH.
Qed.

Lemma round_rounds (working : list Ciphertext) :
  rounds (snd (round working)) = 1.
Proof.
  unfold rounds. rewrite round_snd, filter_app, pair_up_no_round. reflexivity.
Qed.

(** ** The loop *)

Lemma tournament_stop (working : list Ciphertext) :
  length working <= 1 -> tournament working = (working, []).
Proof.
  intros H. rewrite tournament_equation_1.
  destruct (lt_dec 1 (length working)); [lia | reflexivity].
Qed.

Lemma tournament_step (working : list Ciphertext) :
  1 < length working ->
  tournament working =
  (fst (tournament (fst (round working))),
   snd (round working) ++ snd (tournament (fst (round working)))).
Proof.
  intros H. rewrite tournament_equation_1.
  destruct (lt_dec 1 (length working)); [reflexivity | lia].
Qed.

(** The loop, read as the program text: test, one [round], loop again. *)
Lemma tournament_as_while (working : list Ciphertext) :
  tournament working =
  if 1 <? length working
  then next <- round working ;; tournament next
  else ret working.
Proof.
  destruct (Nat.ltb_spec 1 (length working)) as [H|H].
  - now rewrite tournament_step.
  - now rewrite tournament_stop.
Qed.

(** Induction along the iterations of the loop. *)
Lemma tournament_rounds_ind (P : list Ciphertext -> Prop) :
  (forall w, length w <= 1 -> P w) ->
  (forall w, 1 < length w -> P (fst (round w)) -> P w) ->
  forall w, P w.
Proof.
  intros Hstop Hstep w.
  remember (length w) as k eqn:Hk.
  revert w Hk.
  induction k as [k IH] using (well_founded_induction Nat.lt_wf_0).
  intros w ->.
  destruct (le_lt_dec (length w) 1) as [H|H].
  - now apply Hstop.
  - apply Hstep; [exact H|].
    apply (IH (length (fst (round w)))); [now apply round_shrinks | reflexivity].
Qed.

Lemma pair_up_shape (working : list Ciphertext) :
  fst (pair_up working) =
  map (fun k => CAdd (nth (2 * k) working no_ct) (nth (2 * k + 1) working no_ct))
      (seq 0 (length working / 2)).
Proof.
  induction working as [|a|a b l IH] using list_ind2; try reflexivity.
  rewrite pair_up_fst_cons2, IH.
  change (length (a :: b :: l)) with (1 * 2 + length l).
  rewrite Nat.div_add_l by discriminate.
  change (1 + length l / 2) with (S (length l / 2)).
  cbn [seq map]. f_equal.
  rewrite <- seq_shift, map_map.
  apply map_ext. intros k.
  replace (2 * S k) with (S (S (2 * k))) by lia.
  reflexivity.
Qed.

Lemma odd_mod2 (k : nat) : (k mod 2 =? 1) = Nat.odd k.
Proof.
  enough (((k mod 2 =? 1) = Nat.odd k) /\ ((S k mod 2 =? 1) = Nat.odd (S k)))
    as [H _] by exact H.
  induction k as [|k [IH1 IH2]]; [split; reflexivity|].
  split; [exact IH2|].
  change (Nat.odd (S (S k))) with (Nat.odd k). rewrite <- IH1.
  replace (S (S k)) with (k + 1 * 2) by lia.
  now rewrite Nat.Div0.mod_add.
Qed.

Lemma pass_through_shape (working : list Ciphertext) :
  pass_through working =
  if Nat.odd (length working) then [last working no_ct] else [].
Proof. unfold pass_through, back. now rewrite odd_mod2. Qed.

(** Halving with round-up lowers the ceiling of the binary logarithm by
    exactly one. *)
Lemma log2_up_half (k : nat) :
  1 < k -> Nat.log2_up k = S (Nat.log2_up (k / 2 + k mod 2)).
Proof.
  intros Hk.
  pose proof (Nat.div_mod_eq k 2) as Hdm.
  pose proof (Nat.mod_upper_bound k 2 ltac:(discriminate)) as Hm.
  set (m := k / 2 + k mod 2) in *.
  destruct (Nat.eq_dec m 1) as [E|E].
  - assert (k = 2) as -> by lia. rewrite E. reflexivity.
  - assert (1 < m) as Hm1 by lia.
    pose proof (Nat.log2_up_spec m Hm1) as [Hlo Hhi].
    pose proof (Nat.log2_up_pos m Hm1) as Hpos.
    apply Nat.log2_up_unique; [lia|].
    cbn [Nat.pred].
    destruct (Nat.log2_up m) as [|p]; [lia|].
    cbn [Nat.pred] in Hlo.
    rewrite !Nat.pow_succ_r' in *.
    lia.
Qed.

Lemma tournament_round_count (working : list Ciphertext) :
  rounds (snd (tournament working)) = Nat.log2_up (length working).
Proof.
  induction working as [w H|w H IH] using tournament_rounds_ind.
  - rewrite tournament_stop by exact H.
    destruct w as [|a [|b w]]; [reflexivity | reflexivity | simpl in H; lia].
  - rewrite tournament_step by exact H. cbn [snd].
    unfold rounds in *. rewrite filter_app, length_app.
    fold (rounds (snd (round w))). rewrite round_rounds, IH, round_length.
    now rewrite (log2_up_half H).
Qed.

Lemma tournament_one_left (working : list Ciphertext) :
  working <> [] -> length (fst (tournament working)) = 1.
Proof.
  induction working as [w H|w H IH] using tournament_rounds_ind; intros Hne.
  - rewrite tournament_stop by exact H.
    destruct w as [|a [|b w]]; [congruence | reflexivity | simpl in H; lia].
  - rewrite tournament_step by exact H. cbn [fst].
    apply IH. intros E.
    apply (f_equal (@length _)) in E. rewrite round_length in E.
    pose proof (Nat.div_mod_eq (length w) 2). cbn [length] in E. lia.
Qed.

(** C3.  The tournament loop is total.  For every non-empty sequence of
    scores it ends after exactly ceil(log2 N) rounds with exactly one
    element left.  Every iteration is one [round] on the survivors, and a
    round combines the adjacent pairs (2k, 2k+1) and appends nothing
    when the number of survivors is even and exactly the last survivor,
    unchanged, when it is odd. *)
Theorem tournament_rounds_and_pass_through
  (s : Ciphertext) (rest : list Ciphertext) :
  rounds (snd (tournament (s :: rest))) = Nat.log2_up (length (s :: rest)) /\
  length (fst (tournament (s :: rest))) = 1 /\
  forall working : list Ciphertext,
    tournament working =
      (if 1 <? length working
       then next <- round working ;; tournament next
       else ret working) /\
    fst (round working) =
      map (fun k => CAdd (nth (2 * k) working no_ct)
                         (nth (2 * k + 1) working no_ct))
          (seq 0 (length working / 2))
      ++ (if Nat.odd (length working) then [last working no_ct] else []).
Proof.
  split; [apply tournament_round_count|].
  split; [apply tournament_one_left; discriminate|].
  intros working.
  split; [apply tournament_as_while|].
  now rewrite round_fst, pair_up_shape, pass_through_shape.
Qed.

(** ** What the tournament computes *)

Lemma qsum_app (l1 l2 : list Qc) : qsum (l1 ++ l2) = (qsum l1 + qsum l2)%Qc.
Proof.
  induction l1 as [|x l1 IH]; cbn [app qsum fold_right].
  - now rewrite Qcplus_0_l.
  - fold (qsum (l1 ++ l2)). fold (qsum l1). rewrite IH. ring.
Qed.

Section Sums.

Variables (n j : nat).

Let total (l : list Ciphertext) : Qc := qsum (map (fun c => slots n c j) l).

Lemma round_keeps_total (working : list Ciphertext) :
  total (fst (round working)) = total working.
Proof.
  unfold total. rewrite round_fst.
  induction working as [|a|a b l IH] using list_ind2.
  - reflexivity.
  - reflexivity.
  - rewrite pair_up_fst_cons2, pass_through_cons2.
    cbn [app map qsum fold_right slots].
    fold (qsum (map (fun c => slots n c j) (fst (pair_up l) ++ pass_through l))).
    fold (qsum (map (fun c => slots n c j) l)).
    rewrite IH. ring.
Qed.

Lemma tournament_keeps_total (working : list Ciphertext) :
  total (fst (tournament working)) = total working.
Proof.
  induction working as [w H|w H IH] using tournament_rounds_ind.
  - now rewrite tournament_stop.
  - rewrite tournament_step by exact H. cbn [fst].
    rewrite IH. apply round_keeps_total.
Qed.

End Sums.

(** C2.  On a non-empty sequence of scores the tournament returns one
    ciphertext, and in every slot its exact value is the sum of the values
    of all the input scores; a single score is returned as it is, with no
    library call. *)
Theorem tournament_returns_sum (s : Ciphertext) (rest : list Ciphertext) :
  (exists r : Ciphertext,
      fst (tournament (s :: rest)) = [r] /\
      forall n j : nat,
        slots n r j = qsum (map (fun c => slots n c j) (s :: rest))) /\
  tournament [s] = ([s], []).
Proof.
  split; [|now apply tournament_stop].
  pose proof (@tournament_one_left (s :: rest) ltac:(discriminate)) as Hlen.
  destruct (fst (tournament (s :: rest))) as [|r [|r' l]] eqn:E;
    try discriminate Hlen.
  exists r. split; [reflexivity|].
  intros n j.
  pose proof (tournament_keeps_total n j (s :: rest)) as Hsum.
  rewrite E in Hsum. cbn [map qsum fold_right] in Hsum.
  rewrite Qcplus_0_r in Hsum. exact Hsum.
Qed.

(** C1.  The combiner of a pair hands back the ciphertext of
    [EvalAdd(A, B)]: its value is the plain sum of the two scores.  For
    the scores 0.25 and 0.5 it yields 0.75, whereas their maximum, which
    (A + B + |A - B|) / 2 gives, is 0.5. *)
Theorem pairwise_max_returns_plain_sum :
  (forall A B : Ciphertext,
      fst (pairwise_max A B) = CAdd A B /\
      value (fst (pairwise_max A B)) = (value A + value B)%Qc) /\
  value (fst (pairwise_max (CEnc (PubKey 1) [0.25%float])
                           (CEnc (PubKey 1) [0.5%float]))) = Q2Qc (3 # 4) /\
  Qcmax (value (CEnc (PubKey 1) [0.25%float]))
        (value (CEnc (PubKey 1) [0.5%float])) = Q2Qc (1 # 2) /\
  ((value (CEnc (PubKey 1) [0.25%float]) + value (CEnc (PubKey 1) [0.5%float])
    + Qcabs (value (CEnc (PubKey 1) [0.25%float])
             - value (CEnc (PubKey 1) [0.5%float]))) / Q2Qc 2)%Qc
  = Q2Qc (1 # 2).
Proof.
  split; [intros A B; split; reflexivity|].
  repeat split; apply Qc_is_canon; vm_compute; reflexivity.
Qed.

(** ** The run of [main] *)

Section MainFacts.

Variable Rng : Type.
Variable d : Rng -> float * Rng.
Variable keygen : KeyPair.
Variable decrypt : PrivateKey -> Ciphertext -> Plaintext.
Variable rng : Rng.

Lemma main_log :
  snd (main d keygen decrypt rng) =
  setup_calls ++ (if good keygen then work_calls d keygen rng else []).
Proof.
  unfold main, work_calls.
  cbn [bind fst snd GenCryptoContext KeyGen cc.Enable call ret app].
  destruct (good keygen); [|reflexivity].
  cbn [negb bind fst snd cc.EvalMultKeyGen cc.EvalAtIndexKeyGen cc.Encrypt
       Decrypt call ret app].
  rewrite !mapM_fst, !mapM_snd.
  cbn [cc.Encrypt similarity cc.EvalMult cc.EvalSum bind call ret fst snd app].
  rewrite concat_map_singleton.
  unfold enc_maxSim_of, enc_sims_of, enc_db_of, enc_query_of, query_of, db_of,
    threshold_vec, setup_calls, MakeCKKSPackedPlaintext.
  cbn [app]. reflexivity.
Qed.

Lemma main_result :
  fst (main d keygen decrypt rng) =
  if good keygen then (0%Z, Some (report_of d keygen decrypt rng))
  else (1%Z, None).
Proof.
  unfold main.
  cbn [bind fst snd GenCryptoContext KeyGen cc.Enable call ret].
  destruct (good keygen); [|reflexivity].
  cbn [negb bind fst snd cc.EvalMultKeyGen cc.EvalAtIndexKeyGen cc.Encrypt
       Decrypt call ret].
  rewrite !mapM_fst.
  cbn [cc.Encrypt similarity cc.EvalMult cc.EvalSum bind call ret fst snd].
  unfold report_of, enc_max_of, plain_of, enc_maxSim_of, enc_sims_of, enc_db_of,
    enc_query_of, query_of, db_of.
  reflexivity.
Qed.

End MainFacts.

(** ** Similarity of one item *)

Lemma map_nth_combine (A : Type) (f : float -> float -> A) (a b : Vec) (m : nat) :
  length a = m -> length b = m ->
  map (fun k => f (nth k a 0%float) (nth k b 0%float)) (seq 0 m) =
  map (fun p => f (fst p) (snd p)) (combine a b).
Proof.
  revert b m.
  induction a as [|x a IH]; intros [|y b] m Ha Hb; cbn [length] in *; subst m;
    try discriminate; [reflexivity|].
  cbn [seq map combine fst snd nth]. f_equal.
  rewrite <- seq_shift, map_map. cbn [nth].
  apply IH; [reflexivity | congruence].
Qed.

Lemma slot_sum_is_dot_product (m : nat) (pk : PublicKey) (q v : Vec) :
  length q = m -> length v = m ->
  slots m (CSum (CMult (CEnc pk q) (CEnc pk v)) m) 0 = dot_product q v.
Proof.
  intros Hq Hv. unfold dot_product.
  rewrite <- (map_nth_combine (fun x y => (F2Qc x * F2Qc y)%Qc) q v Hq Hv).
  cbn [slots]. f_equal.
  apply map_ext_in. intros k Hk.
  apply in_seq in Hk. cbn [Nat.add].
  rewrite Nat.mod_small by lia.
  destruct (Nat.ltb_spec k m); [reflexivity | lia].
Qed.

(** C6.  The similarity of a database item is one [EvalMult] of the
    packed query and item ciphertexts followed by one [EvalSum] over the
    [BATCH_SIZE] = D slots, for every item of the encrypted database; in
    the exact reading of the scheme the value read back from slot 0 is the
    plaintext dot product of the two dimension-D vectors. *)
Theorem similarity_is_dot_product
  (pk : PublicKey) (q v : Vec) (enc_db : list Ciphertext) :
  length q = DIM -> length v = DIM ->
  let enc_query := CEnc pk (MakeCKKSPackedPlaintext q) in
  let enc_item := CEnc pk (MakeCKKSPackedPlaintext v) in
  similarity enc_query enc_item =
    (CSum (CMult enc_query enc_item) BATCH_SIZE,
     [CallEvalMult enc_query enc_item;
      CallEvalSum (CMult enc_query enc_item) BATCH_SIZE]) /\
  value (fst (similarity enc_query enc_item)) = dot_product q v /\
  fst (mapM (similarity enc_query) enc_db) =
    map (fun c => CSum (CMult enc_query c) BATCH_SIZE) enc_db.
Proof.
  intros Hq Hv enc_query enc_item.
  split; [reflexivity|].
  split; [|now rewrite mapM_fst].
  apply (slot_sum_is_dot_product pk q v Hq Hv).
Qed.

(** A unit-norm query and item: 64 coordinates equal to 1/8. *)
Lemma similarity_is_dot_product_witness :
  length (repeat 0.125%float 64) = DIM /\
  value (fst (similarity (CEnc (PubKey 1) (repeat 0.125%float 64))
                         (CEnc (PubKey 1) (repeat 0.125%float 64)))) =
  dot_product (repeat 0.125%float 64) (repeat 0.125%float 64).
Proof.
  split; [reflexivity|].
  apply (similarity_is_dot_product (PubKey 1) (repeat 0.125%float 64)
           (repeat 0.125%float 64) [] eq_refl eq_refl).
Defined.

(** ** The decision *)

Lemma SFltb_irrefl (x : spec_float) : SFltb x x = false.
Proof.
  unfold SFltb.
  destruct x as [s|s| |s m e].
  - reflexivity.
  - destruct s; reflexivity.
  - reflexivity.
  - unfold SFcompare.
    destruct s; rewrite Z.compare_refl, Pos.compare_cont_refl; reflexivity.
Qed.

Lemma SFltb_not_eqb (x y : spec_float) : SFltb x y && SFeqb x y = false.
Proof.
  unfold SFltb, SFeqb.
  destruct (SFcompare x y) as [[| |]|]; reflexivity.
Qed.

(** C4.  The decision is the strict comparison [score < threshold] of
    two doubles: a score equal to the threshold, bit for bit or as IEEE
    numbers, is never unique; and the encrypted decision a finished run
    reports is that comparison applied to the decrypted maximum. *)
Theorem decision_is_strict_less_than :
  (forall m t : float, is_unique m t = (m <? t)%float) /\
  (forall t : float, is_unique t t = false) /\
  (forall m t : float, is_unique m t && (m =? t)%float = false) /\
  (forall (Rng : Type) (d : Rng -> float * Rng) (keygen : KeyPair)
          (decrypt : PrivateKey -> Ciphertext -> Plaintext) (rng : Rng),
      match snd (fst (main d keygen decrypt rng)) with
      | Some r =>
          is_unique_encrypted r = (enc_max r <? SIMILARITY_THRESHOLD)%float /\
          is_unique_plaintext r = (plain_max r <? SIMILARITY_THRESHOLD)%float
      | None => good keygen = false
      end).
Proof.
  split; [reflexivity|].
  split; [intros t; unfold is_unique; rewrite ltb_spec; apply SFltb_irrefl|].
  split.
  - intros m t. unfold is_unique.
    rewrite ltb_spec, FloatAxioms.eqb_spec. apply SFltb_not_eqb.
  - intros Rng d keygen decrypt rng. rewrite main_result.
    destruct (good keygen); cbn [fst snd]; [|reflexivity].
    unfold report_of.
    cbn [is_unique_encrypted is_unique_plaintext enc_max plain_max].
    unfold is_unique. split; reflexivity.
Qed.

(** ** Classifying the log of a run *)

Lemma pair_up_calls (working : list Ciphertext) :
  Forall (fun c => is_tournament_call c = true) (snd (pair_up working)).
Proof.
  induction working as [|a|a b l IH] using list_ind2.
  - constructor.
  - constructor.
  - rewrite pair_up_snd_cons2. repeat constructor. exact IH.
Qed.

Lemma tournament_calls (working : list Ciphertext) :
  Forall (fun c => is_tournament_call c = true) (snd (tournament working)).
Proof.
  induction working as [w H|w H IH] using tournament_rounds_ind.
  - rewrite tournament_stop by exact H. constructor.
  - rewrite tournament_step by exact H. cbn [snd].
    rewrite round_snd.
    apply Forall_app; split; [apply Forall_app; split|].
    + apply pair_up_calls.
    + repeat constructor.
    + exact IH.
Qed.

Lemma filter_none (p : Call -> bool) (l : list Call) :
  Forall (fun c => p c = false) l -> filter p l = [].
Proof.
  induction 1 as [|c l Hc _ IH]; [reflexivity|].
  cbn [filter]. now rewrite Hc.
Qed.

Lemma filter_all (p : Call -> bool) (l : list Call) :
  Forall (fun c => p c = true) l -> filter p l = l.
Proof.
  induction 1 as [|c l Hc _ IH]; [reflexivity|].
  cbn [filter]. now rewrite Hc, IH.
Qed.

Lemma filter_tournament (p : Call -> bool) (working : list Ciphertext) :
  (forall c, is_tournament_call c = true -> p c = false) ->
  filter p (snd (tournament working)) = [].
Proof.
  intros Hp. apply filter_none.
  eapply Forall_impl; [|apply tournament_calls]. exact Hp.
Qed.

Lemma filter_similarities (p : Call -> bool) (q : Ciphertext) (l : list Ciphertext) :
  (forall a b, p (CallEvalMult a b) = false) ->
  (forall a k, p (CallEvalSum a k) = false) ->
  filter p (concat (map (fun c => [CallEvalMult q c;
                                   CallEvalSum (CMult q c) BATCH_SIZE]) l)) = [].
Proof.
  intros Hm Hs.
  induction l as [|c l IH]; [reflexivity|].
  cbn [map concat app filter]. now rewrite Hm, Hs.
Qed.

Lemma filter_encrypts (p : Call -> bool) (b : bool) (pk : PublicKey) (l : list Vec) :
  (forall v, p (CallEncrypt pk v) = b) ->
  filter p (map (fun v => CallEncrypt pk v) l) =
  if b then map (fun v => CallEncrypt pk v) l else [].
Proof.
  intros Hp.
  induction l as [|v l IH]; [now destruct b|].
  cbn [map filter]. rewrite Hp, IH. now destruct b.
Qed.

Lemma generate_db_length (Rng : Type) (d : Rng -> float * Rng) (k : nat) (rng : Rng) :
  length (fst (generate_db d k rng)) = k.
Proof.
  revert rng. induction k as [|k IH]; intros rng; [reflexivity|].
  cbn [generate_db fst length]. now rewrite IH.
Qed.

Lemma generate_db_normalized (Rng : Type) (d : Rng -> float * Rng) (k : nat) (rng : Rng) :
  Forall (fun v => exists raw : Vec, v = normalize_inplace raw)
         (fst (generate_db d k rng)).
Proof.
  revert rng. induction k as [|k IH]; intros rng; [constructor|].
  cbn [generate_db fst]. constructor; [eexists; reflexivity | apply IH].
Qed.

Lemma tournament_result_is_sum (working : list Ciphertext) :
  1 < length working ->
  exists a b : Ciphertext, fst (tournament working) = [CAdd a b].
Proof.
  induction working as [w H|w H IH] using tournament_rounds_ind; [lia|].
  intros _. rewrite tournament_step by exact H. cbn [fst].
  destruct (le_lt_dec (length (fst (round w))) 1) as [Hs|Hs]; [|now apply IH].
  rewrite tournament_stop by exact Hs. cbn [fst].
  rewrite round_length in Hs.
  pose proof (Nat.div_mod_eq (length w) 2) as Hdm.
  assert (length w = 2) as Hw by lia.
  destruct w as [|a [|b [|c w]]]; try discriminate Hw.
  exists a, b. reflexivity.
Qed.

(** Filtering the calls that follow a successful [KeyGen], whatever the
    vectors and the tournament log are. *)
Lemma filter_work_shape
  (p : Call -> bool) (be bd : bool) (pk : PublicKey) (sk : PrivateKey)
  (k1 k2 : Call) (db : list Vec) (q thr : Vec) (eq c : Ciphertext)
  (edb : list Ciphertext) (tlog : list Call) :
  p k1 = false -> p k2 = false ->
  (forall v, p (CallEncrypt pk v) = be) ->
  (forall a b, p (CallEvalMult a b) = false) ->
  (forall a k, p (CallEvalSum a k) = false) ->
  p (CallDecrypt sk c) = bd ->
  filter p tlog = [] ->
  filter p
    ([k1; k2]
     ++ map (fun v => CallEncrypt pk v) db
     ++ [CallEncrypt pk q]
     ++ concat (map (fun c => [CallEvalMult eq c;
                               CallEvalSum (CMult eq c) BATCH_SIZE]) edb)
     ++ tlog
     ++ [CallEncrypt pk thr; CallDecrypt sk c]) =
  (if be then map (fun v => CallEncrypt pk v) db ++ [CallEncrypt pk q; CallEncrypt pk thr]
   else [])
  ++ (if bd then [CallDecrypt sk c] else []).
Proof.
  intros H1 H2 He Hm Hs Hd Ht.
  rewrite !filter_app, (filter_encrypts p pk db He), filter_similarities, Ht
    by assumption.
  cbn [filter app]. rewrite H1, H2, !He, Hd.
  destruct be, bd; cbn [app]; rewrite ?app_nil_r, <- ?app_assoc; reflexivity.
Qed.

Lemma setup_no_encrypt : filter is_encrypt setup_calls = [].
Proof. reflexivity. Qed.

Lemma setup_no_decrypt : filter is_decrypt setup_calls = [].
Proof. reflexivity. Qed.

Lemma setup_no_share : filter is_share_call setup_calls = [].
Proof. reflexivity. Qed.

Lemma pass_through_not_fresh (working : list Ciphertext) :
  Forall (fun c => is_fresh c = false) working ->
  Forall (fun c => is_fresh c = false) (pass_through working).
Proof.
  induction working as [|a|a b l IH] using list_ind2; intros H.
  - constructor.
  - exact H.
  - rewrite pass_through_cons2. apply IH.
    now inversion H as [|? ? _ H']; inversion H'.
Qed.

Lemma pair_up_not_fresh (working : list Ciphertext) :
  Forall (fun c => is_fresh c = false) (fst (pair_up working)).
Proof.
  induction working as [|a|a b l IH] using list_ind2.
  - constructor.
  - constructor.
  - rewrite pair_up_fst_cons2. now constructor.
Qed.

Lemma pair_up_no_sub_on_fresh (working : list Ciphertext) :
  Forall (fun c => is_fresh c = false) working ->
  filter sub_on_fresh (snd (pair_up working)) = [].
Proof.
  induction working as [|a|a b l IH] using list_ind2; intros H.
  - reflexivity.
  - reflexivity.
  - rewrite pair_up_snd_cons2.
    inversion H as [|? ? Ha H']; subst. inversion H' as [|? ? Hb H'']; subst.
    cbn [filter sub_on_fresh]. rewrite Ha, Hb. cbn [orb]. now apply IH.
Qed.

Lemma tournament_no_sub_on_fresh (working : list Ciphertext) :
  Forall (fun c => is_fresh c = false) working ->
  filter sub_on_fresh (snd (tournament working)) = [].
Proof.
  induction working as [w H|w H IH] using tournament_rounds_ind; intros Hw.
  - now rewrite tournament_stop.
  - rewrite tournament_step by exact H. cbn [snd].
    rewrite round_snd, !filter_app, pair_up_no_sub_on_fresh by exact Hw.
    cbn [filter sub_on_fresh app]. apply IH.
    rewrite round_fst. apply Forall_app. split.
    + apply pair_up_not_fresh.
    + now apply pass_through_not_fresh.
Qed.

Section Runs.

Variable Rng : Type.
Variable d : Rng -> float * Rng.
Variable keygen : KeyPair.
Variable decrypt : PrivateKey -> Ciphertext -> Plaintext.
Variable rng : Rng.

Local Abbreviation log := (snd (main d keygen decrypt rng)).
Local Abbreviation pk := (publicKey keygen).
Local Abbreviation sk := (secretKey keygen).

Lemma db_of_length : length (db_of d rng) = DB_N.
Proof. apply generate_db_length. Qed.

Lemma main_encrypt_calls :
  filter is_encrypt log =
  if good keygen
  then map (fun v => CallEncrypt pk v) (db_of d rng)
       ++ [CallEncrypt pk (query_of d rng); CallEncrypt pk threshold_vec]
  else [].
Proof.
  rewrite main_log, filter_app, setup_no_encrypt, app_nil_l.
  destruct (good keygen); [|reflexivity].
  unfold work_calls.
  rewrite filter_work_shape with (be := true) (bd := false);
    [apply app_nil_r | reflexivity .. | ].
  apply filter_tournament. intros [] E; try discriminate E; reflexivity.
Qed.

Lemma main_decrypt_calls :
  filter is_decrypt log =
  if good keygen then [CallDecrypt sk (enc_maxSim_of d keygen rng)] else [].
Proof.
  rewrite main_log, filter_app, setup_no_decrypt, app_nil_l.
  destruct (good keygen); [|reflexivity].
  unfold work_calls.
  rewrite filter_work_shape with (be := false) (bd := true);
    [reflexivity | reflexivity .. | ].
  apply filter_tournament. intros [] E; try discriminate E; reflexivity.
Qed.

Lemma main_share_calls : filter is_share_call log = [].
Proof.
  rewrite main_log, filter_app, setup_no_share, app_nil_l.
  destruct (good keygen); [|reflexivity].
  unfold work_calls.
  rewrite filter_work_shape with (be := false) (bd := false);
    [reflexivity | reflexivity .. | ].
  apply filter_tournament. intros [] E; try discriminate E; reflexivity.
Qed.

Lemma enc_sims_of_length : length (enc_sims_of d keygen rng) = DB_N.
Proof.
  unfold enc_sims_of, enc_db_of. rewrite !length_map. apply db_of_length.
Qed.

Lemma enc_maxSim_of_is_sum :
  exists a b : Ciphertext, enc_maxSim_of d keygen rng = CAdd a b.
Proof.
  destruct (@tournament_result_is_sum (enc_sims_of d keygen rng)) as (a & b & E).
  - rewrite enc_sims_of_length. unfold DB_N. lia.
  - exists a, b. unfold enc_maxSim_of. now rewrite E.
Qed.

Lemma main_no_sub_on_fresh : filter sub_on_fresh log = [].
Proof.
  rewrite main_log, filter_app.
  replace (filter sub_on_fresh setup_calls) with (@nil Call) by reflexivity.
  rewrite app_nil_l.
  destruct (good keygen); [|reflexivity].
  unfold work_calls.
  rewrite filter_work_shape with (be := false) (bd := false);
    [reflexivity | reflexivity .. | ].
  apply tournament_no_sub_on_fresh.
  unfold enc_sims_of. apply Forall_map, Forall_forall. reflexivity.
Qed.

Lemma enc_db_of_eq :
  enc_db_of d keygen rng =
  map (fun v => CEnc pk (MakeCKKSPackedPlaintext v)) (db_of d rng).
Proof. reflexivity. Qed.

Lemma enc_sims_of_eq :
  enc_sims_of d keygen rng =
  map (fun c => CSum (CMult (enc_query_of d keygen rng) c) BATCH_SIZE)
      (enc_db_of d keygen rng).
Proof. reflexivity. Qed.

Lemma sum_not_a_score (a b : Ciphertext) :
  ~ In (CAdd a b) (enc_sims_of d keygen rng).
Proof.
  rewrite enc_sims_of_eq. intros Hin. apply in_map_iff in Hin.
  destruct Hin as (c & Hc & _). discriminate Hc.
Qed.

Lemma sum_not_an_input (a b : Ciphertext) :
  ~ In (CAdd a b) (enc_query_of d keygen rng :: enc_db_of d keygen rng).
Proof.
  rewrite enc_db_of_eq.
  intros Hin. apply in_inv in Hin. destruct Hin as [Hq|Hin].
  - discriminate Hq.
  - apply in_map_iff in Hin. destruct Hin as (c & Hc & _). discriminate Hc.
Qed.

End Runs.

(** ** Normalising the zero vector *)

Lemma sum_squares_zero (k : nat) : sum_squares (repeat 0%float k) = 0%float.
Proof.
  unfold sum_squares.
  induction k as [|k IH]; [reflexivity|].
  cbn [repeat fold_left].
  replace (0 + 0 * 0)%float with 0%float by reflexivity.
  exact IH.
Qed.

Lemma normalize_zero_vector (k : nat) :
  normalize_inplace (repeat 0%float k) = repeat 0%float k.
Proof.
  unfold normalize_inplace. rewrite sum_squares_zero. reflexivity.
Qed.

(** ** The claims about a whole run *)

Section Claims.

Variable Rng : Type.
Variable d : Rng -> float * Rng.
Variable keygen : KeyPair.
Variable decrypt : PrivateKey -> Ciphertext -> Plaintext.
Variable rng : Rng.

(** C5.  In every run no [EvalSub] takes a freshly encrypted plaintext,
    such as the encrypted threshold, as an operand; when key generation
    succeeds the encryption of the threshold vector is the last call
    before the decryption of [enc_maxSim] itself, and the reported
    decision compares the decrypted double with the plaintext threshold. *)
Theorem encrypted_threshold_is_never_used :
  filter sub_on_fresh (snd (main d keygen decrypt rng)) = [] /\
  if good keygen
  then (exists front : list Call,
           snd (main d keygen decrypt rng) =
           front ++ [CallEncrypt (publicKey keygen) threshold_vec;
                     CallDecrypt (secretKey keygen) (enc_maxSim_of d keygen rng)]) /\
       (exists r : Report,
           snd (fst (main d keygen decrypt rng)) = Some r /\
           is_unique_encrypted r =
           (nth 0 (decrypt (secretKey keygen) (enc_maxSim_of d keygen rng)) 0
            <? SIMILARITY_THRESHOLD)%float)
  else snd (main d keygen decrypt rng) = setup_calls.
Proof.
  split; [apply main_no_sub_on_fresh|].
  rewrite main_log, main_result.
  destruct (good keygen); [|apply app_nil_r].
  split.
  - unfold work_calls. eexists.
    rewrite !app_assoc. reflexivity.
  - exists (report_of d keygen decrypt rng). split; reflexivity.
Qed.

(** C7 (as the program has it).  [main] validates no depth budget:
    [MULT_DEPTH] goes unchecked into [GenCryptoContext], the first call of
    every run; when key generation succeeds the run encrypts the
    [DB_N] database vectors, the query and the threshold and returns 0,
    and the only early exit is the failure of key generation, which
    returns 1 before any encryption. *)
Theorem main_validates_no_depth_budget :
  (exists rest : list Call,
      snd (main d keygen decrypt rng) =
      CallGenCryptoContext MULT_DEPTH SCALE_BITS BATCH_SIZE security :: rest) /\
  fst (fst (main d keygen decrypt rng)) = (if good keygen then 0 else 1)%Z /\
  length (filter is_encrypt (snd (main d keygen decrypt rng))) =
  if good keygen then DB_N + 2 else 0.
Proof.
  split; [rewrite main_log; eexists; reflexivity|].
  split; [rewrite main_result; now destruct (good keygen)|].
  rewrite main_encrypt_calls.
  destruct (good keygen); [|reflexivity].
  rewrite length_app, length_map, db_of_length. reflexivity.
Qed.

(** C8.  The one ciphertext a run hands to decryption is [enc_maxSim], the
    single survivor of the tournament over the [DB_N] similarity scores:
    it is a sum built by the tournament, not one of the per-item scores
    and not an encrypted input vector; no share-based decryption call is
    made, and the decrypted double is the only value of the report that
    comes from a ciphertext. *)
Theorem only_the_final_maximum_is_decrypted :
  filter is_decrypt (snd (main d keygen decrypt rng)) =
    (if good keygen
     then [CallDecrypt (secretKey keygen) (enc_maxSim_of d keygen rng)]
     else []) /\
  fst (tournament (enc_sims_of d keygen rng)) = [enc_maxSim_of d keygen rng] /\
  ~ In (enc_maxSim_of d keygen rng) (enc_sims_of d keygen rng) /\
  ~ In (enc_maxSim_of d keygen rng)
       (enc_query_of d keygen rng :: enc_db_of d keygen rng) /\
  snd (fst (main d keygen decrypt rng)) =
    (if good keygen then Some (report_of d keygen decrypt rng) else None) /\
  enc_max (report_of d keygen decrypt rng) =
    nth 0 (decrypt (secretKey keygen) (enc_maxSim_of d keygen rng)) 0%float /\
  plain_max (report_of d keygen decrypt rng) = fst (plain_of d rng) /\
  plain_argmax (report_of d keygen decrypt rng) = snd (plain_of d rng).
Proof.
  split; [apply main_decrypt_calls|].
  destruct (enc_maxSim_of_is_sum d keygen rng) as (a & b & E).
  split; [|split; [|split; [|split]]].
  - destruct (@tournament_result_is_sum (enc_sims_of d keygen rng)) as (a' & b' & E').
    + rewrite enc_sims_of_length. unfold DB_N. lia.
    + unfold enc_maxSim_of. now rewrite E'.
  - rewrite E. apply sum_not_a_score.
  - rewrite E. apply sum_not_an_input.
  - rewrite main_result. now destruct (good keygen).
  - unfold report_of. cbn [enc_max plain_max plain_argmax].
    unfold enc_max_of. split; [reflexivity | split; reflexivity].
Qed.

(** C10 (as the program has it).  Decryption is one call of the
    single-key [Decrypt] with the complete secret key returned by
    [KeyGen]: no partial decryption is requested and no shares are
    combined or counted; a run either stops with code 1 when key
    generation fails, before any decryption, or decrypts [enc_maxSim]
    once, reads its slot 0 and returns 0. *)
Theorem decryption_is_single_key :
  filter is_share_call (snd (main d keygen decrypt rng)) = [] /\
  filter is_decrypt (snd (main d keygen decrypt rng)) =
    (if good keygen
     then [CallDecrypt (secretKey keygen) (enc_maxSim_of d keygen rng)]
     else []) /\
  fst (main d keygen decrypt rng) =
    (if good keygen
     then (0%Z, Some (report_of d keygen decrypt rng))
     else (1%Z, None)) /\
  enc_max (report_of d keygen decrypt rng) =
    nth 0 (decrypt (secretKey keygen) (enc_maxSim_of d keygen rng)) 0%float.
Proof.
  split; [apply main_share_calls|].
  split; [apply main_decrypt_calls|].
  split; [apply main_result|].
  unfold report_of. cbn [enc_max]. unfold enc_max_of. reflexivity.
Qed.

(** C9 (as the program has it).  [normalize_inplace] signals nothing: it
    returns the vector as it is when the computed norm compares equal to
    0, as it does for the all-zero vector of any dimension, and the
    vector divided by the norm otherwise.  Every database vector is an
    output of [normalize_inplace], and when key generation succeeds each
    of them and the query is encrypted, whatever its norm. *)
Theorem zero_norm_vector_is_kept_and_encrypted :
  (forall k : nat, normalize_inplace (repeat 0%float k) = repeat 0%float k) /\
  (forall v : Vec,
      normalize_inplace v =
      if (PrimFloat.sqrt (sum_squares v) =? 0)%float then v
      else map (fun x => x / PrimFloat.sqrt (sum_squares v))%float v) /\
  Forall (fun v => exists raw : Vec, v = normalize_inplace raw) (db_of d rng) /\
  if good keygen
  then incl (map (fun v => CallEncrypt (publicKey keygen) v)
                 (query_of d rng :: db_of d rng))
            (snd (main d keygen decrypt rng))
  else filter is_encrypt (snd (main d keygen decrypt rng)) = [].
Proof.
  split; [apply normalize_zero_vector|].
  split; [reflexivity|].
  split; [apply generate_db_normalized|].
  pose proof (main_encrypt_calls d keygen decrypt rng) as H.
  destruct (good keygen); [|exact H].
  intros c Hc.
  assert (In c (filter is_encrypt (snd (main d keygen decrypt rng)))) as Hin.
  { rewrite H. apply in_inv in Hc. apply in_or_app.
    destruct Hc as [<-|Hc]; [right; left; reflexivity | left; exact Hc]. }
  apply filter_In in Hin. apply Hin.
Qed.

End Claims.

(** ** The claims the program does not meet as written *)

(** C7, counterexample.  With an absolute-value approximation of depth
    2 the budget needed, 1 + 7 * 2 = 15, exceeds [MULT_DEPTH] = 10; the
    sample run nevertheless returns 0 after encrypting 102 plaintexts. *)
Lemma depth_budget_validation_counterexample :
  MULT_DEPTH < 1 + Nat.log2_up DB_N * 2 /\
  fst (fst sample_run) = 0%Z /\
  length (filter is_encrypt (snd sample_run)) = 102.
Proof.
  split; [vm_compute; lia|].
  split; vm_compute; reflexivity.
Qed.

(** C9, counterexample.  The zero vector comes out of
    [normalize_inplace] as it went in; in the run whose generator draws
    only zeros the first database vector, of norm 0, is encrypted as the
    ninth call, and the run returns 0. *)
Lemma zero_norm_vector_counterexample :
  normalize_inplace [0; 0; 0]%float = [0; 0; 0]%float /\
  nth_error (snd zero_run) 8 =
    Some (CallEncrypt (PubKey 1) (repeat 0%float DIM)) /\
  fst (fst zero_run) = 0%Z.
Proof.
  split; [reflexivity|].
  split; vm_compute; reflexivity.
Qed.

(** C10, counterexample.  In the sample run, with [THRESHOLD_PARTIES]
    = [NUM_PARTIES] = 1, no share is requested or combined: the one
    decryption is the single-key call with the whole secret key. *)
Lemma threshold_decryption_counterexample :
  THRESHOLD_PARTIES = 1 /\ NUM_PARTIES = 1 /\
  filter is_share_call (snd sample_run) = [] /\
  (exists c : Ciphertext,
      filter is_decrypt (snd sample_run) = [CallDecrypt (SecKey 1) c]) /\
  fst (fst sample_run) = 0%Z.
Proof.
  split; [reflexivity|]. split; [reflexivity|].
  split; [vm_compute; reflexivity|].
  split; [eexists; vm_compute; reflexivity | vm_compute; reflexivity].
Qed.

(** * Further properties of the code *)

(** ** Comparison of doubles *)

Lemma SFltb_trans (x y z : spec_float) :
  SFltb x y = true -> SFltb y z = true -> SFltb x z = true.
Proof.
  unfold SFltb.
  destruct x as [sx|sx| |sx mx ex], y as [sy|sy| |sy my ey],
           z as [sz|sz| |sz mz ez];
    cbn [SFcompare]; try discriminate;
    try (destruct sx; try discriminate); try (destruct sy; try discriminate);
    try (destruct sz; try discriminate); try reflexivity; try discriminate.
  all: change (PosDef.Pos.compare_cont Eq) with Pos.compare.
  all: destruct (Z.compare_spec ex ey), (Z.compare_spec ey ez),
         (Z.compare_spec ex ez);
       try lia; try discriminate; try reflexivity;
       destruct (Pos.compare_spec mx my), (Pos.compare_spec my mz),
         (Pos.compare_spec mx mz);
       cbn [CompOpp]; try lia; try discriminate; try reflexivity.
Qed.

Lemma SFltb_eqb_r (x y z : spec_float) :
  SFltb x y = true -> SFeqb z y = true -> SFltb x z = true.
Proof.
  unfold SFltb, SFeqb.
  destruct x as [sx|sx| |sx mx ex], y as [sy|sy| |sy my ey],
           z as [sz|sz| |sz mz ez];
    cbn [SFcompare]; try discriminate;
    try (destruct sx; try discriminate); try (destruct sy; try discriminate);
    try (destruct sz; try discriminate); try reflexivity; try discriminate.
  all: change (PosDef.Pos.compare_cont Eq) with Pos.compare.
  all: destruct (Z.compare_spec ex ey), (Z.compare_spec ez ey),
         (Z.compare_spec ex ez);
       try lia; try discriminate; try reflexivity;
       destruct (Pos.compare_spec mx my), (Pos.compare_spec mz my),
         (Pos.compare_spec mx mz);
       cbn [CompOpp]; try lia; try discriminate; try reflexivity.
Qed.

Lemma ltb_trans (x y z : float) :
  (x <? y)%float = true -> (y <? z)%float = true -> (x <? z)%float = true.
Proof. rewrite !ltb_spec. apply SFltb_trans. Qed.

Lemma ltb_eqb_r (x y z : float) :
  (x <? y)%float = true -> (z =? y)%float = true -> (x <? z)%float = true.
Proof. rewrite !ltb_spec, FloatAxioms.eqb_spec. apply SFltb_eqb_r. Qed.

Lemma ltb_irrefl (x : float) : (x <? x)%float = false.
Proof. rewrite ltb_spec. apply SFltb_irrefl. Qed.

(** ** The plaintext baseline (lines 67-73) *)

Section Scan.

Variable f : nat -> float.

(** The body of the baseline loop over the similarities [f]. *)
Definition scan_step (acc : float * nat) (i : nat) : float * nat :=
  let s := f i in if (fst acc <? s)%float then (s, i) else acc.

Lemma scan_invariant (init : float * nat) (l : list nat) :
  (forall i, In i l -> (fst (fold_left scan_step l init) <? f i)%float = false) /\
  (fold_left scan_step l init = init \/
   exists l1 l2,
     l = l1 ++ snd (fold_left scan_step l init) :: l2 /\
     fst (fold_left scan_step l init) = f (snd (fold_left scan_step l init)) /\
     forall j, In j l1 ->
               (f j =? fst (fold_left scan_step l init))%float = false).
Proof.
  induction l as [|i l [IHa IHb]] using rev_ind.
  - split; [intros i []|left; reflexivity].
  - rewrite fold_left_app. cbn [fold_left].
    set (r := fold_left scan_step l init) in *.
    assert (scan_step r i = if (fst r <? f i)%float then (f i, i) else r)
      as -> by reflexivity.
    destruct (fst r <? f i)%float eqn:E; cbn [fst snd].
    + split.
      * intros j Hj. apply in_app_or in Hj. destruct Hj as [Hj|[<-|[]]].
        -- destruct (f i <? f j)%float eqn:E'; [|reflexivity].
           pose proof (IHa j Hj) as C.
           rewrite (ltb_trans E E') in C. discriminate C.
        -- apply ltb_irrefl.
      * right. exists l, []. split; [reflexivity|]. split; [reflexivity|].
        intros j Hj. destruct (f j =? f i)%float eqn:E'; [|reflexivity].
        pose proof (IHa j Hj) as C.
        rewrite (ltb_eqb_r E E') in C. discriminate C.
    + split.
      * intros j Hj. apply in_app_or in Hj. destruct Hj as [Hj|[<-|[]]].
        -- now apply IHa.
        -- exact E.
      * destruct IHb as [IHb|(l1 & l2 & Hl & Hf & Hfirst)]; [left; exact IHb|].
        right. exists l1, (l2 ++ [i]). split; [|split; assumption].
        rewrite Hl at 1. now rewrite <- app_assoc.
Qed.

End Scan.

Lemma seq_split_at (k a : nat) (l1 l2 : list nat) :
  seq 0 k = l1 ++ a :: l2 -> a < k /\ l1 = seq 0 a.
Proof.
  intros H.
  assert (length l1 < k) as Hlen.
  { apply (f_equal (@length _)) in H.
    rewrite length_seq, length_app in H. cbn [length] in H. lia. }
  assert (a = length l1) as ->.
  { pose proof (@seq_nth k 0 (length l1) 0 Hlen) as Hn.
    rewrite H, app_nth2, Nat.sub_diag in Hn by lia. cbn [nth] in Hn.
    cbn [Nat.add] in Hn. exact Hn. }
  split; [exact Hlen|].
  apply (nth_ext _ _ 0 0); [now rewrite length_seq|].
  intros j Hj.
  rewrite seq_nth by exact Hj.
  rewrite <- (app_nth1 l1 (length l1 :: l2) 0 Hj), <- H.
  now rewrite seq_nth by lia.
Qed.

Lemma baseline_as_scan (query : Vec) (db : list Vec) :
  baseline query db =
  fold_left (scan_step (plain_sim query db)) (seq 0 DB_N) ((-2)%float, 0).
Proof. reflexivity. Qed.

(** X1.  The plaintext baseline returns a valid index and a value no
    similarity of the database exceeds; unless no similarity is greater
    than the initial -2.0 (then it returns -2.0 and index 0), the value
    is the similarity of the returned index, and that index is the first
    one whose similarity equals it. *)
Theorem baseline_is_first_maximum (query : Vec) (db : list Vec) :
  snd (baseline query db) < DB_N /\
  (forall i, i < DB_N ->
     (fst (baseline query db) <? plain_sim query db i)%float = false) /\
  (baseline query db = ((-2)%float, 0) \/
   (fst (baseline query db) = plain_sim query db (snd (baseline query db)) /\
    forall j, j < snd (baseline query db) ->
      (plain_sim query db j =? fst (baseline query db))%float = false)).
Proof.
  assert (0 < DB_N) as Hpos by (unfold DB_N; lia).
  rewrite baseline_as_scan.
  destruct (scan_invariant (plain_sim query db) ((-2)%float, 0) (seq 0 DB_N))
    as [Ha Hb].
  remember (fold_left (scan_step (plain_sim query db)) (seq 0 DB_N)
                      ((-2)%float, 0)) as r eqn:Hr.
  clear Hr.
  split; [|split].
  - destruct Hb as [Hb|(l1 & l2 & Hl & _)]; [now rewrite Hb|].
    now apply seq_split_at in Hl.
  - intros i Hi. apply Ha, in_seq. lia.
  - destruct Hb as [Hb|(l1 & l2 & Hl & Hf & Hfirst)]; [left; exact Hb|].
    right. split; [exact Hf|].
    intros j Hj. apply Hfirst.
    apply seq_split_at in Hl. destruct Hl as [_ ->]. apply in_seq. lia.
Qed.

(** ** The work of the tournament *)

Lemma add_operands_app (l1 l2 : list Call) :
  add_operands (l1 ++ l2) = add_operands l1 ++ add_operands l2.
Proof. apply flat_map_app. Qed.

Lemma sub_operands_app (l1 l2 : list Call) :
  sub_operands (l1 ++ l2) = sub_operands l1 ++ sub_operands l2.
Proof. apply flat_map_app. Qed.

Lemma pair_up_operands (working : list Ciphertext) :
  sub_operands (snd (pair_up working)) = add_operands (snd (pair_up working)) /\
  length (add_operands (snd (pair_up working))) = length working / 2.
Proof.
  induction working as [|a|a b l [IH1 IH2]] using list_ind2.
  - split; reflexivity.
  - split; reflexivity.
  - rewrite pair_up_snd_cons2.
    change (sub_operands (CallEvalAdd a b :: CallEvalSub a b :: snd (pair_up l)))
      with ((a, b) :: sub_operands (snd (pair_up l))).
    change (add_operands (CallEvalAdd a b :: CallEvalSub a b :: snd (pair_up l)))
      with ((a, b) :: add_operands (snd (pair_up l))).
    rewrite IH1. split; [reflexivity|].
    change (length (a :: b :: l)) with (1 * 2 + length l).
    rewrite Nat.div_add_l by discriminate.
    cbn [length]. now rewrite IH2.
Qed.

Lemma tournament_operands (working : list Ciphertext) :
  sub_operands (snd (tournament working)) =
    add_operands (snd (tournament working)) /\
  length (add_operands (snd (tournament working))) = length working - 1.
Proof.
  induction working as [w H|w H [IH1 IH2]] using tournament_rounds_ind.
  - rewrite tournament_stop by exact H. split; [reflexivity|].
    cbn [snd add_operands flat_map length]. lia.
  - rewrite tournament_step by exact H. cbn [snd].
    rewrite round_snd, !add_operands_app, !sub_operands_app.
    destruct (pair_up_operands w) as [P1 P2].
    rewrite P1, IH1. split; [reflexivity|].
    rewrite !length_app, P2, IH2, round_length.
    cbn [add_operands flat_map length app].
    pose proof (Nat.div_mod_eq (length w) 2).
    pose proof (Nat.mod_upper_bound (length w) 2 ltac:(discriminate)).
    lia.
Qed.

(** X2.  On N scores the tournament issues exactly N - 1 [EvalAdd] calls
    (none for N = 0 or 1), and its [EvalSub] calls are on exactly the
    same operand pairs, in the same order. *)
Theorem tournament_issues_one_pairing_less_than_scores
  (scores : list Ciphertext) :
  length (add_operands (snd (tournament scores))) = length scores - 1 /\
  sub_operands (snd (tournament scores)) =
  add_operands (snd (tournament scores)).
Proof.
  destruct (tournament_operands scores) as [H1 H2]. now split.
Qed.

(** Whatever holds of the scores and is kept by [EvalAdd] holds of what
    the tournament returns. *)
Lemma tournament_preserves (P : Ciphertext -> Prop) (working : list Ciphertext) :
  (forall a b, P a -> P b -> P (CAdd a b)) ->
  Forall P working -> Forall P (fst (tournament working)).
Proof.
  intros Hadd.
  induction working as [w H|w H IH] using tournament_rounds_ind; intros Hw.
  - now rewrite tournament_stop.
  - rewrite tournament_step by exact H. cbn [fst]. apply IH.
    rewrite round_fst. clear IH H.
    induction w as [|a|a b l IHl] using list_ind2.
    + constructor.
    + exact Hw.
    + rewrite pair_up_fst_cons2, pass_through_cons2.
      inversion Hw as [|? ? Ha Hw']; subst. inversion Hw' as [|? ? Hb Hw'']; subst.
      cbn [app]. constructor; [now apply Hadd | now apply IHl].
Qed.

(** X3.  The tournament adds no multiplicative level, and when no score
    contains the result of a subtraction neither does what it returns:
    the differences [pairwise_max] computes never reach the output. *)
Theorem tournament_keeps_depth_and_drops_differences
  (k : nat) (scores : list Ciphertext) :
  Forall (fun c => mult_depth c <= k) scores ->
  Forall (fun c => uses_sub c = false) scores ->
  Forall (fun c => mult_depth c <= k) (fst (tournament scores)) /\
  Forall (fun c => uses_sub c = false) (fst (tournament scores)).
Proof.
  intros Hd Hs. split.
  - apply tournament_preserves; [|exact Hd].
    intros a b Ha Hb. cbn [mult_depth]. lia.
  - apply tournament_preserves; [|exact Hs].
    intros a b Ha Hb. cbn [uses_sub]. now rewrite Ha, Hb.
Qed.

Lemma tournament_keeps_depth_and_drops_differences_witness :
  Forall (fun c => mult_depth c <= 1)
    (fst (tournament [CMult no_ct no_ct; no_ct; CSum no_ct 4])) /\
  Forall (fun c => uses_sub c = false)
    (fst (tournament [CMult no_ct no_ct; no_ct; CSum no_ct 4])).
Proof.
  apply (@tournament_keeps_depth_and_drops_differences 1
           [CMult no_ct no_ct; no_ct; CSum no_ct 4]).
  - repeat constructor.
  - repeat constructor.
Defined.

(** ** Drawing and normalising the vectors (lines 27-39 and 57-64) *)

Section Drawing.

Variable Rng : Type.
Variable d : Rng -> float * Rng.

Lemma random_vector_length (dim : nat) (rng : Rng) :
  length (fst (random_vector d dim rng)) = dim.
Proof.
  revert rng. induction dim as [|dim IH]; intros rng; [reflexivity|].
  cbn [random_vector]. destruct (d rng) as [x rng1].
  specialize (IH rng1). destruct (random_vector d dim rng1) as [v rng2].
  cbn [fst length] in *. now rewrite IH.
Qed.

Lemma random_vector_app (a b : nat) (rng : Rng) :
  random_vector d (a + b) rng =
  (fst (random_vector d a rng)
     ++ fst (random_vector d b (snd (random_vector d a rng))),
   snd (random_vector d b (snd (random_vector d a rng)))).
Proof.
  revert rng. induction a as [|a IH]; intros rng.
  - cbn [Nat.add random_vector fst snd app]. now destruct (random_vector d b rng).
  - cbn [Nat.add random_vector]. destruct (d rng) as [x rng1].
    rewrite (IH rng1). destruct (random_vector d a rng1) as [v rng2].
    reflexivity.
Qed.


Lemma normalize_inplace_length (v : Vec) :
  length (normalize_inplace v) = length v.
Proof.
  unfold normalize_inplace.
  destruct (PrimFloat.sqrt (sum_squares v) =? 0)%float; [reflexivity|].
  apply length_map.
Qed.

Lemma generate_db_blocks (k : nat) (rng : Rng) :
  exists raws : list Vec,
    fst (generate_db d k rng) = map normalize_inplace raws /\
    length raws = k /\
    Forall (fun v => length v = DIM) raws /\
    concat raws = fst (random_vector d (k * DIM) rng) /\
    snd (generate_db d k rng) = snd (random_vector d (k * DIM) rng).
Proof.
  revert rng. induction k as [|k IH]; intros rng.
  - exists []. repeat split. constructor.
  - destruct (IH (snd (random_vector d DIM rng)))
      as (raws & Hdb & Hlen & Hdim & Hcat & Hrng).
    exists (fst (random_vector d DIM rng) :: raws).
    replace (S k * DIM) with (DIM + k * DIM) by lia.
    rewrite random_vector_app. cbn [generate_db fst snd map concat length].
    rewrite Hdb, Hlen, Hcat, Hrng.
    repeat split. constructor; [apply random_vector_length | exact Hdim].
Qed.


End Drawing.

(** ** Not-a-number inputs *)

Lemma SFeqb_refl_iff (x : spec_float) : SFeqb x x = false <-> x = S754_nan.
Proof.
  unfold SFeqb.
  destruct x as [s|s| |s m e].
  - split; discriminate.
  - destruct s; split; discriminate.
  - split; reflexivity.
  - unfold SFcompare.
    destruct s; rewrite Z.compare_refl, Pos.compare_cont_refl;
      split; discriminate.
Qed.

Lemma is_nan_spec (x : float) : is_nan x = true <-> Prim2SF x = S754_nan.
Proof.
  unfold is_nan. rewrite FloatAxioms.eqb_spec, negb_true_iff.
  apply SFeqb_refl_iff.
Qed.

Lemma is_nan_add_l (a b : float) : is_nan a = true -> is_nan (a + b) = true.
Proof.
  rewrite !is_nan_spec, add_spec. intros ->. reflexivity.
Qed.

Lemma is_nan_add_r (a b : float) : is_nan b = true -> is_nan (a + b) = true.
Proof.
  rewrite !is_nan_spec, add_spec. intros ->.
  destruct (Prim2SF a) as [s|s| |s m e]; reflexivity.
Qed.

Lemma is_nan_mul_l (a b : float) : is_nan a = true -> is_nan (a * b) = true.
Proof.
  rewrite !is_nan_spec, mul_spec. intros ->. reflexivity.
Qed.

Lemma is_nan_div_r (a b : float) : is_nan b = true -> is_nan (a / b) = true.
Proof.
  rewrite !is_nan_spec, div_spec. intros ->.
  destruct (Prim2SF a) as [s|s| |s m e]; reflexivity.
Qed.

Lemma is_nan_sqrt (a : float) : is_nan a = true -> is_nan (PrimFloat.sqrt a) = true.
Proof.
  rewrite !is_nan_spec, sqrt_spec. intros ->. reflexivity.
Qed.

Lemma is_nan_not_eqb (a b : float) : is_nan a = true -> (a =? b)%float = false.
Proof.
  rewrite is_nan_spec, FloatAxioms.eqb_spec. intros ->. reflexivity.
Qed.

Lemma is_nan_not_ltb (a b : float) :
  is_nan a = true \/ is_nan b = true -> (a <? b)%float = false.
Proof.
  rewrite !is_nan_spec, ltb_spec. intros [-> | ->]; [reflexivity|].
  destruct (Prim2SF a) as [s|s| |s m e]; reflexivity.
Qed.

Lemma sum_squares_nan (v : Vec) (x : float) :
  In x v -> is_nan x = true -> is_nan (sum_squares v) = true.
Proof.
  unfold sum_squares. generalize 0%float as acc.
  induction v as [|y v IH]; intros acc Hin Hx; [destruct Hin|].
  cbn [fold_left]. destruct Hin as [->|Hin]; [|now apply IH].
  assert (is_nan (acc + x * x) = true) as Hacc
    by now apply is_nan_add_r, is_nan_mul_l.
  clear IH. revert Hacc. generalize (acc + x * x)%float as acc'.
  induction v as [|z v IH]; intros acc' Hacc; [exact Hacc|].
  cbn [fold_left]. apply IH. now apply is_nan_add_l.
Qed.

(** X6.  [normalize_inplace] does not screen its input: when one entry of
    the vector is NaN, every entry of the result is NaN (the norm is NaN,
    the test [s == 0] fails and each entry is divided by NaN), and the
    dimension is unchanged. *)
Theorem normalize_inplace_spreads_nan (v : Vec) (x : float) :
  In x v -> is_nan x = true ->
  Forall (fun y => is_nan y = true) (normalize_inplace v) /\
  length (normalize_inplace v) = length v.
Proof.
  intros Hin Hx. split; [|apply normalize_inplace_length].
  pose proof (sum_squares_nan v x Hin Hx) as Hs.
  apply is_nan_sqrt in Hs.
  unfold normalize_inplace.
  rewrite is_nan_not_eqb by exact Hs.
  apply Forall_map, Forall_forall. intros y _. now apply is_nan_div_r.
Qed.

Lemma normalize_inplace_spreads_nan_witness :
  Forall (fun y => is_nan y = true) (normalize_inplace [3; nan; 4]%float) /\
  length (normalize_inplace [3; nan; 4]%float) = 3.
Proof.
  apply (@normalize_inplace_spreads_nan [3; nan; 4]%float nan).
  - right; left; reflexivity.
  - reflexivity.
Defined.

(** X7.  A decrypted score or a threshold that is NaN never gives
    "unique": the decision expression is false as soon as one side is
    NaN. *)
Theorem decision_is_not_unique_on_nan (m t : float) :
  is_nan m = true \/ is_nan t = true -> is_unique m t = false.
Proof. apply is_nan_not_ltb. Qed.

Lemma decision_is_not_unique_on_nan_witness :
  is_unique nan SIMILARITY_THRESHOLD = false.
Proof.
  apply (@decision_is_not_unique_on_nan nan SIMILARITY_THRESHOLD).
  left. reflexivity.
Defined.

(** X8.  The decision is monotone in the score: any score below a score
    that is reported unique is reported unique as well. *)
Theorem decision_is_monotone (m m' t : float) :
  (m' <? m)%float = true -> is_unique m t = true -> is_unique m' t = true.
Proof. intros H1 H2. exact (ltb_trans H1 H2). Qed.

Lemma decision_is_monotone_witness :
  is_unique 0.125%float SIMILARITY_THRESHOLD = true.
Proof.
  apply (@decision_is_monotone 0.25%float 0.125%float SIMILARITY_THRESHOLD);
    reflexivity.
Defined.

(** ** The whole run, continued *)

Lemma filter_add_count (log : list Call) :
  length (filter is_eval_add log) = length (add_operands log).
Proof.
  induction log as [|c log IH]; [reflexivity|].
  destruct c; cbn [filter is_eval_add add_operands flat_map app length];
    fold (add_operands log); now rewrite ?IH.
Qed.

Lemma filter_sub_count (log : list Call) :
  length (filter is_eval_sub log) = length (sub_operands log).
Proof.
  induction log as [|c log IH]; [reflexivity|].
  destruct c; cbn [filter is_eval_sub sub_operands flat_map app length];
    fold (sub_operands log); now rewrite ?IH.
Qed.

Lemma filter_similarities_mult (q : Ciphertext) (l : list Ciphertext) :
  length (filter is_eval_mult
            (concat (map (fun c => [CallEvalMult q c;
                                    CallEvalSum (CMult q c) BATCH_SIZE]) l))) =
  length l.
Proof.
  induction l as [|c l IH]; [reflexivity|].
  cbn [map concat app filter is_eval_mult length]. now rewrite IH.
Qed.

Lemma filter_similarities_sum (q : Ciphertext) (l : list Ciphertext) :
  length (filter is_eval_sum
            (concat (map (fun c => [CallEvalMult q c;
                                    CallEvalSum (CMult q c) BATCH_SIZE]) l))) =
  length l.
Proof.
  induction l as [|c l IH]; [reflexivity|].
  cbn [map concat app filter is_eval_sum length]. now rewrite IH.
Qed.

(** Filtering the calls after [KeyGen] by a test that rejects key
    generation, encryption and decryption calls. *)
Lemma filter_work_evaluations
  (p : Call -> bool) (pk : PublicKey) (sk : PrivateKey)
  (k1 k2 : Call) (db : list Vec) (q thr : Vec) (c : Ciphertext)
  (sims tlog : list Call) :
  p k1 = false -> p k2 = false ->
  (forall v, p (CallEncrypt pk v) = false) ->
  p (CallDecrypt sk c) = false ->
  filter p
    ([k1; k2]
     ++ map (fun v => CallEncrypt pk v) db
     ++ [CallEncrypt pk q]
     ++ sims
     ++ tlog
     ++ [CallEncrypt pk thr; CallDecrypt sk c]) =
  filter p sims ++ filter p tlog.
Proof.
  intros H1 H2 He Hd.
  rewrite !filter_app, (filter_encrypts p pk db He).
  cbn [filter app]. rewrite H1, H2, !He, Hd.
  cbn [app]. now rewrite app_nil_r.
Qed.

Section MoreRuns.

Variable Rng : Type.
Variable d : Rng -> float * Rng.
Variable keygen : KeyPair.
Variable decrypt : PrivateKey -> Ciphertext -> Plaintext.
Variable rng : Rng.

Lemma enc_sims_of_map :
  enc_sims_of d keygen rng =
  map (fun v => CSum (CMult (enc_query_of d keygen rng)
                            (CEnc (publicKey keygen) (MakeCKKSPackedPlaintext v)))
                     BATCH_SIZE)
      (db_of d rng).
Proof. now rewrite enc_sims_of_eq, enc_db_of_eq, map_map. Qed.

Lemma tournament_of_sims :
  fst (tournament (enc_sims_of d keygen rng)) = [enc_maxSim_of d keygen rng].
Proof.
  destruct (@tournament_result_is_sum (enc_sims_of d keygen rng)) as (a & b & E).
  - rewrite enc_sims_of_length. unfold DB_N. lia.
  - unfold enc_maxSim_of. now rewrite E.
Qed.

Lemma setup_no_evaluation (p : Call -> bool) :
  p (CallGenCryptoContext MULT_DEPTH SCALE_BITS BATCH_SIZE security) = false ->
  (forall f, p (CallEnable f) = false) ->
  p CallKeyGen = false ->
  filter p setup_calls = [].
Proof.
  intros H1 H2 H3. unfold setup_calls. cbn [filter].
  now rewrite H1, !H2, H3.
Qed.

(** X9.  The ciphertext handed to decryption has multiplicative depth 1,
    the one [EvalMult] of the similarity, within the budget
    [MULT_DEPTH]; and no result of an [EvalSub] is part of it. *)
Theorem decrypted_ciphertext_has_depth_one :
  mult_depth (enc_maxSim_of d keygen rng) = 1 /\
  1 <= MULT_DEPTH /\
  uses_sub (enc_maxSim_of d keygen rng) = false.
Proof.
  assert (Forall (fun c => mult_depth c = 1 /\ uses_sub c = false)
                 (fst (tournament (enc_sims_of d keygen rng)))) as H.
  { apply tournament_preserves.
    - intros a b [Ha Ha'] [Hb Hb']. cbn [mult_depth uses_sub].
      now rewrite Ha, Hb, Ha', Hb'.
    - rewrite enc_sims_of_map. apply Forall_map, Forall_forall.
      intros v _. split; reflexivity. }
  rewrite tournament_of_sims in H.
  apply Forall_inv in H. destruct H as [H1 H2].
  split; [exact H1|]. split; [unfold MULT_DEPTH; lia | exact H2].
Qed.

(** X10.  A run in which key generation succeeds issues exactly [DB_N]
    [EvalMult], [DB_N] [EvalSum], [DB_N - 1] [EvalAdd] and [DB_N - 1]
    [EvalSub] calls and prints ceil(log2 DB_N) round lines; a run in
    which it fails issues none of them. *)
Theorem run_operation_counts :
  length (filter is_eval_mult (snd (main d keygen decrypt rng))) =
    (if good keygen then DB_N else 0) /\
  length (filter is_eval_sum (snd (main d keygen decrypt rng))) =
    (if good keygen then DB_N else 0) /\
  length (filter is_eval_add (snd (main d keygen decrypt rng))) =
    (if good keygen then DB_N - 1 else 0) /\
  length (filter is_eval_sub (snd (main d keygen decrypt rng))) =
    (if good keygen then DB_N - 1 else 0) /\
  rounds (snd (main d keygen decrypt rng)) =
    (if good keygen then Nat.log2_up DB_N else 0).
Proof.
  unfold rounds. rewrite main_log, !filter_app.
  rewrite !setup_no_evaluation by reflexivity.
  destruct (good keygen); [|repeat split].
  unfold work_calls.
  rewrite !filter_work_evaluations by reflexivity.
  destruct (tournament_operands (enc_sims_of d keygen rng)) as [Hs Ha].
  pose proof (tournament_round_count (enc_sims_of d keygen rng)) as Hr.
  unfold rounds in Hr.
  rewrite enc_sims_of_length in Ha, Hr.
  rewrite !length_app.
  rewrite filter_similarities_mult, filter_similarities_sum.
  rewrite !filter_similarities by reflexivity.
  rewrite !filter_tournament
    by (intros [] E; try discriminate E; reflexivity).
  rewrite filter_add_count, filter_sub_count, Hs, Ha, Hr.
  unfold enc_db_of. rewrite length_map, db_of_length.
  cbn [length]. rewrite !Nat.add_0_r. repeat split.
Qed.

End MoreRuns.

Section RunValues.

Variable Rng : Type.
Variable d : Rng -> float * Rng.
Variable keygen : KeyPair.
Variable decrypt : PrivateKey -> Ciphertext -> Plaintext.
Variable rng : Rng.

Lemma db_of_dims : Forall (fun v => length v = DIM) (db_of d rng).
Proof.
  destruct (generate_db_blocks d DB_N rng) as (raws & Hdb & _ & Hdim & _).
  assert (db_of d rng = map normalize_inplace raws) as -> by exact Hdb.
  apply Forall_map. eapply Forall_impl; [|exact Hdim].
  intros v Hv. now rewrite normalize_inplace_length.
Qed.

Lemma query_of_length : length (query_of d rng) = DIM.
Proof.
  assert (query_of d rng =
          normalize_inplace
            (fst (random_vector d DIM (snd (generate_db d DB_N rng)))))
    as -> by reflexivity.
  rewrite normalize_inplace_length. apply random_vector_length.
Qed.

Lemma qsum_single (x : Qc) : qsum [x] = x.
Proof. cbn [qsum fold_right]. apply Qcplus_0_r. Qed.

(** X11.  In the exact reading of the scheme, the value in slot 0 of the
    ciphertext a run decrypts is the sum, over the whole database, of the
    plaintext dot products of the normalised query with the normalised
    database vectors. *)
Theorem decrypted_value_is_sum_of_dot_products :
  value (enc_maxSim_of d keygen rng) =
  qsum (map (fun v => dot_product (query_of d rng) v) (db_of d rng)).
Proof.
  unfold value.
  rewrite <- (qsum_single (slots BATCH_SIZE (enc_maxSim_of d keygen rng) 0)).
  change [slots BATCH_SIZE (enc_maxSim_of d keygen rng) 0]
    with (map (fun c => slots BATCH_SIZE c 0) [enc_maxSim_of d keygen rng]).
  rewrite <- tournament_of_sims, tournament_keeps_total, enc_sims_of_map, map_map.
  f_equal. apply map_ext_in. intros v Hv.
  pose proof db_of_dims as Hdims.
  rewrite Forall_forall in Hdims.
  apply slot_sum_is_dot_product; [apply query_of_length | now apply Hdims].
Qed.

(** X12.  The secret key is handed to exactly three calls of a successful
    run, in this order: [EvalMultKeyGen], [EvalAtIndexKeyGen] and the one
    [Decrypt]; every encryption is under the public key of the same key
    pair, and the plaintexts encrypted are, in order, the database
    vectors, the query and the threshold vector.  A run whose key
    generation fails uses neither key. *)
Theorem keys_are_used_as_generated :
  filter uses_secret_key (snd (main d keygen decrypt rng)) =
    (if good keygen
     then [CallEvalMultKeyGen (secretKey keygen);
           CallEvalAtIndexKeyGen (secretKey keygen) [1; 2; 4; 8; 16; 32; 64]%Z;
           CallDecrypt (secretKey keygen) (enc_maxSim_of d keygen rng)]
     else []) /\
  filter is_encrypt (snd (main d keygen decrypt rng)) =
    (if good keygen
     then map (fun v => CallEncrypt (publicKey keygen) v)
              (db_of d rng ++ [query_of d rng; threshold_vec])
     else []).
Proof.
  split.
  - rewrite main_log, filter_app.
    rewrite setup_no_evaluation by reflexivity.
    destruct (good keygen); [|reflexivity].
    unfold work_calls.
    rewrite !filter_app, (@filter_encrypts uses_secret_key false) by reflexivity.
    rewrite filter_similarities by reflexivity.
    rewrite filter_tournament by (intros [] E; try discriminate E; reflexivity).
    reflexivity.
  - rewrite main_encrypt_calls.
    destruct (good keygen); [|reflexivity].
    now rewrite map_app.
Qed.

End RunValues.

(** ** What the plaintext decision means *)

Unset Implicit Arguments.





